(** * Verification of the log API of log-analyzer (src/application/api.py)

    Shallow embedding of [API._merge_logs], [API.add_logs], [API.get_logs],
    [API.__prune_logs] and [API.__save_pruned_logs].

    Data model:
    - a [datetime] timestamp is an integer (microseconds since an epoch);
      Python compares and hashes datetimes by the instant they denote,
      which is what equality and order on [Z] give;
    - [LogEntry] is a record of a timestamp, a tag and a message;
    - the Python [set] of keys in [_merge_logs] is a [gset];
    - [list.sort(key=...)] is Python's stable sort, modelled by a stable
      insertion sort (a stable sort of a list by a key has one result). *)

From Stdlib Require Import ZArith Lia Sorting.Sorted Sorting.Permutation.
From stdpp Require Import base list gmap sets strings.

Open Scope Z_scope.

(** ** Data model: src/model/log_entry.py as used by the API *)

Record LogEntry := mkLogEntry {
  timestamp : Z;
  tag : string;
  message : string
}.

#[global] Instance LogEntry_eq_dec : EqDecision LogEntry.
Proof. solve_decision. Defined.

(** The dedup key [(log.timestamp, log.tag, log.message)]. *)
Abbreviation log_key_t := (Z * string * string)%type.

Definition log_key (log : LogEntry) : log_key_t :=
  (timestamp log, tag log, message log).

(** ** [API._merge_logs] *)

(** One of the two [for] loops of [_merge_logs]: state is the pair
    ([unique_logs], [combined_logs]). *)
Fixpoint merge_loop (unique_logs : gset log_key_t)
    (combined_logs : list LogEntry) (logs : list LogEntry)
    : gset log_key_t * list LogEntry :=
  match logs with
  | [] => (unique_logs, combined_logs)
  | log :: rest =>
      let k := log_key log in
      if decide (k ∈ unique_logs) then merge_loop unique_logs combined_logs rest
      else merge_loop ({[k]} ∪ unique_logs) (combined_logs ++ [log]) rest
  end.

(** Stable insertion by [log.timestamp]: [x] goes before the first element
    whose timestamp is not smaller. *)
Fixpoint insert_by_timestamp (x : LogEntry) (l : list LogEntry) : list LogEntry :=
  match l with
  | [] => [x]
  | y :: ys =>
      if timestamp x <=? timestamp y then x :: y :: ys
      else y :: insert_by_timestamp x ys
  end.

(** [combined_logs.sort(key=lambda log: log.timestamp)] *)
Fixpoint sort_by_timestamp (l : list LogEntry) : list LogEntry :=
  match l with
  | [] => []
  | x :: xs => insert_by_timestamp x (sort_by_timestamp xs)
  end.

(** The list [combined_logs] right before the sort. *)
Definition combine_unique (cache_logs db_logs : list LogEntry) : list LogEntry :=
  let '(unique_logs, combined_logs) := merge_loop ∅ [] cache_logs in
  snd (merge_loop unique_logs combined_logs db_logs).

Definition _merge_logs (cache_logs db_logs : list LogEntry) : list LogEntry :=
  sort_by_timestamp (combine_unique cache_logs db_logs).

Definition ts_le (a b : LogEntry) : Prop := timestamp a <= timestamp b.

Example merge_scenario_B :
  _merge_logs [mkLogEntry 1000 "INFO" "x"]
              [mkLogEntry 1000 "INFO" "x"; mkLogEntry 900 "WARN" "y"]
  = [mkLogEntry 900 "WARN" "y"; mkLogEntry 1000 "INFO" "x"].
Proof. vm_compute. reflexivity. Qed.

(** ** [_merge_logs] over a heap of Python lists

    [cache_logs] and [db_logs] are references to lists; [combined_logs] is
    a fresh list, appended to by the loops and sorted in place. *)

Abbreviation loc := positive.
Abbreviation heap := (gmap loc (list LogEntry)).

(** [combined_logs.append(log)] on the list at [r]. *)
Definition heap_append (h : heap) (r : loc) (log : LogEntry) : heap :=
  <[r := default [] (h !! r) ++ [log]]> h.

Fixpoint merge_loop_heap (h : heap) (r : loc) (unique_logs : gset log_key_t)
    (logs : list LogEntry) : heap * gset log_key_t :=
  match logs with
  | [] => (h, unique_logs)
  | log :: rest =>
      let k := log_key log in
      if decide (k ∈ unique_logs) then merge_loop_heap h r unique_logs rest
      else merge_loop_heap (heap_append h r log) r ({[k]} ∪ unique_logs) rest
  end.

(** The loops iterate over the lists at [cache_logs] and [db_logs]; only the
    list at [r] is written, so reading them up front is the same. *)
Definition _merge_logs_heap (h : heap) (cache_logs db_logs : loc) : heap * loc :=
  let r := fresh (dom h) in
  let h0 := <[r := []]> h in
  let '(h1, unique_logs) := merge_loop_heap h0 r ∅ (default [] (h !! cache_logs)) in
  let '(h2, _) := merge_loop_heap h1 r unique_logs (default [] (h !! db_logs)) in
  (<[r := sort_by_timestamp (default [] (h2 !! r))]> h2, r).

(** ** Collaborators of [API] (src/services is not part of src/)

    [TemporalCache] and [SQliteConn] are interfaces: every theorem below
    quantifies over them.  A Python exception is [inl]. *)

Inductive PyExc :=
  | AssertionError (msg : string)
  | PyException (msg : string).

Record TemporalCache (C : Type) := {
  (** Modelled from the spec: TemporalCache.add inserts unconditionally and
      never rejects on content; in this record [add_log] cannot raise.
      The spec's capacity error on resource exhaustion is the record
      [FallibleAdd.TemporalCache] below. *)
  add_log : C -> LogEntry -> C;
  prune_cache : C -> PyExc + (C * list LogEntry);
  cache_get_logs_fn : C -> Z -> Z -> list LogEntry;
  get_all_logs : C -> list LogEntry
}.
Arguments add_log {C}.
Arguments prune_cache {C}.
Arguments cache_get_logs_fn {C}.
Arguments get_all_logs {C}.

Record SQliteConn (D : Type) := {
  save_logs : D -> list LogEntry -> D;
  db_get_logs_fn : D -> Z -> Z -> list LogEntry
}.
Arguments save_logs {D}.
Arguments db_get_logs_fn {D}.

(** ** Observable effects *)

Record LogList := mkLogList { logs : list LogEntry }.

(** The request body of [POST /logs]: [LogEntry | LogList]; [BodyOther]
    is any other Python object, refused by the [assert]. *)
Inductive Body :=
  | BodyLogEntry (e : LogEntry)
  | BodyLogList (ll : LogList)
  | BodyOther.

(** [JSONResponse]s built by the API; the ["message"] string of [add_logs]
    is a function of the count and is left out. *)
Inductive JSONResponse :=
  | JSONAdded (count : Z) (status_code : Z)
  | JSONLogs (logs : list LogEntry) (status_code : Z).

Definition status_code_of (r : JSONResponse) : Z :=
  match r with JSONAdded _ c | JSONLogs _ c => c end.

(** Arguments of the [print] calls. *)
Inductive Printed :=
  | PrintEntry (e : LogEntry)                  (* print(log_entry) *)
  | PrintPruned (pruned : list LogEntry)       (* print(f"Pruned logs: ...") *)
  | PrintPruneError (e : PyExc).               (* print(f"Error during pruning: ...") *)

Inductive event :=
  | EvCacheAddLog (e : LogEntry)
  | EvCachePruneCache
  | EvCacheGetLogs (start_time end_time : Z)
  | EvDbGetLogs (start_time end_time : Z)
  | EvDbSaveLogs (l : list LogEntry)
  | EvPrint (p : Printed)
  | EvSendResponse (r : JSONResponse)
  | EvServerError (e : PyExc).

(** [background_task.add_task(self.__save_pruned_logs, arg)]; [None] is the
    value of [__prune_logs()] after a caught exception. *)
Inductive Task :=
  | SavePrunedLogs (arg : option (list LogEntry)).

Record World (C D : Type) := mkWorld {
  w_cache : C;
  w_db : D;
  w_background : list Task;
  w_trace : list event
}.
Arguments mkWorld {C D}.
Arguments w_cache {C D}.
Arguments w_db {C D}.
Arguments w_background {C D}.
Arguments w_trace {C D}.

(** The attributes of an [API] object used by its methods. *)
Record API (C D : Type) := mkAPI {
  __cache : TemporalCache C;
  __db_service : SQliteConn D
}.
Arguments mkAPI {C D}.
Arguments __cache {C D}.
Arguments __db_service {C D}.

(** State and exception monad. *)
Definition M (C D A : Type) := World C D -> World C D * (PyExc + A).

Section Api.

Context {C D : Type}.

(** [self]: the [API] object, with its [__cache] and [__db_service]. *)
Variable self : API C D.

Definition ret {A} (a : A) : M C D A := fun w => (w, inr a).

Definition bind {A B} (m : M C D A) (k : A -> M C D B) : M C D B :=
  fun w => match m w with
           | (w', inl exc) => (w', inl exc)
           | (w', inr a) => k a w'
           end.

Local Notation "'let!' x ':=' m 'in' k" := (bind m (fun x => k))
  (at level 200, x name, m at level 100, k at level 200).

Definition raise {A} (exc : PyExc) : M C D A := fun w => (w, inl exc).

(** [try: m  except Exception as e: handler(e)] *)
Definition try_except {A} (m : M C D A) (handler : PyExc -> M C D A) : M C D A :=
  fun w => match m w with
           | (w', inl exc) => handler exc w'
           | (w', inr a) => (w', inr a)
           end.

Definition emit (ev : event) : M C D unit :=
  fun w => (mkWorld (w_cache w) (w_db w) (w_background w) (w_trace w ++ [ev]),
            inr tt).

Definition print (p : Printed) : M C D unit := emit (EvPrint p).

Definition set_cache (c : C) : M C D unit :=
  fun w => (mkWorld c (w_db w) (w_background w) (w_trace w), inr tt).

Definition set_db (d : D) : M C D unit :=
  fun w => (mkWorld (w_cache w) d (w_background w) (w_trace w), inr tt).

Definition get_world : M C D (World C D) := fun w => (w, inr w).

(** [background_task.add_task(...)] *)
Definition add_task (t : Task) : M C D unit :=
  fun w => (mkWorld (w_cache w) (w_db w) (w_background w ++ [t]) (w_trace w),
            inr tt).

(** Calls on the collaborators. *)
Definition cache_add_log (e : LogEntry) : M C D unit :=
  let! _ := emit (EvCacheAddLog e) in
  let! w := get_world in
  set_cache (add_log (__cache self) (w_cache w) e).

Definition cache_prune_cache : M C D (list LogEntry) :=
  let! _ := emit EvCachePruneCache in
  let! w := get_world in
  match prune_cache (__cache self) (w_cache w) with
  | inl exc => raise exc
  | inr (c', pruned) => let! _ := set_cache c' in ret pruned
  end.

Definition cache_get_logs (start_time end_time : Z) : M C D (list LogEntry) :=
  let! _ := emit (EvCacheGetLogs start_time end_time) in
  let! w := get_world in
  ret (cache_get_logs_fn (__cache self) (w_cache w) start_time end_time).

Definition db_get_logs (start_time end_time : Z) : M C D (list LogEntry) :=
  let! _ := emit (EvDbGetLogs start_time end_time) in
  let! w := get_world in
  ret (db_get_logs_fn (__db_service self) (w_db w) start_time end_time).

Definition db_save_logs (l : list LogEntry) : M C D unit :=
  let! _ := emit (EvDbSaveLogs l) in
  let! w := get_world in
  set_db (save_logs (__db_service self) (w_db w) l).

Fixpoint for_each (f : LogEntry -> M C D unit) (l : list LogEntry) : M C D unit :=
  match l with
  | [] => ret tt
  | x :: xs => let! _ := f x in for_each f xs
  end.

(** [API.__prune_logs]: the [except] branch falls off the end and
    returns [None]. *)
Definition __prune_logs : M C D (option (list LogEntry)) :=
  try_except
    (let! pruned_logs := cache_prune_cache in
     let! _ := print (PrintPruned pruned_logs) in
     ret (Some pruned_logs))
    (fun e => let! _ := print (PrintPruneError e) in ret None).

(** [API.__save_pruned_logs]: [not pruned_logs] holds for [None] and [[]]. *)
Definition __save_pruned_logs (pruned_logs : option (list LogEntry)) : M C D unit :=
  match pruned_logs with
  | None | Some [] => ret tt
  | Some l => db_save_logs l
  end.

(** [background_task.add_task(self.__save_pruned_logs, self.__prune_logs())]
    followed by the [return JSONResponse(...)]: the argument
    [self.__prune_logs()] is evaluated when [add_task] is called. *)
Definition add_logs_tail (logs_count : Z) : M C D JSONResponse :=
  let! pruned := __prune_logs in
  let! _ := add_task (SavePrunedLogs pruned) in
  ret (JSONAdded logs_count 201).

(** [API.add_logs] *)
Definition add_logs (log_list : Body) : M C D JSONResponse :=
  match log_list with
  | BodyOther => raise (AssertionError "Invalid input type")
  | BodyLogList ll =>
      let! _ := for_each (fun log_entry =>
                  let! _ := print (PrintEntry log_entry) in
                  cache_add_log log_entry) (logs ll) in
      add_logs_tail (Z.of_nat (length (logs ll)))
  | BodyLogEntry e =>
      let! _ := cache_add_log e in
      add_logs_tail 1
  end.

(** [API.get_logs] *)
Definition get_logs (start_time end_time : Z) : M C D JSONResponse :=
  let! cache_logs := cache_get_logs start_time end_time in
  let! db_logs := db_get_logs start_time end_time in
  let overall_logs := _merge_logs cache_logs db_logs in
  ret (JSONLogs overall_logs 200).

Definition run_task (t : Task) : M C D unit :=
  match t with SavePrunedLogs arg => __save_pruned_logs arg end.

Fixpoint run_tasks (ts : list Task) : M C D unit :=
  match ts with
  | [] => ret tt
  | t :: rest => let! _ := run_task t in run_tasks rest
  end.

(** The framework around an endpoint: a fresh [BackgroundTasks], the
    endpoint, then either the response is sent and the background tasks
    run after it, or the exception becomes a server error and no task
    runs. *)
Definition serve (endpoint : M C D JSONResponse) : M C D JSONResponse :=
  fun w =>
    let w0 := mkWorld (w_cache w) (w_db w) [] (w_trace w) in
    match endpoint w0 with
    | (w1, inl exc) => (fst (emit (EvServerError exc) w1), inl exc)
    | (w1, inr resp) =>
        let w2 := fst (emit (EvSendResponse resp) w1) in
        (fst (run_tasks (w_background w1) w2), inr resp)
    end.

End Api.

(** The entries a submission carries, in submission order. *)
Definition submitted_logs (body : Body) : list LogEntry :=
  match body with
  | BodyLogEntry e => [e]
  | BodyLogList ll => logs ll
  | BodyOther => []
  end.

Definition is_db_save (ev : event) : bool :=
  match ev with EvDbSaveLogs _ => true | _ => false end.

(** ** Concrete collaborators, for runs on concrete inputs *)

Record TCState := mkTCState {
  tc_entries : list LogEntry;
  tc_now : Z;
  tc_window : Z
}.

Definition tc_expired (st : TCState) (e : LogEntry) : bool :=
  tc_window st <? tc_now st - timestamp e.

(** Modelled from the spec: TemporalCache (src/services/temporal_cache.py
    is not in src/). [add] inserts unconditionally; [getRange] returns the
    held entries with [start <= timestamp <= end] in ascending order;
    [prune] removes and returns exactly the entries with
    [now - timestamp > retentionWindow]. *)
Definition spec_temporal_cache : TemporalCache TCState := {|
  add_log := fun st e => mkTCState (tc_entries st ++ [e]) (tc_now st) (tc_window st);
  prune_cache := fun st =>
    inr (mkTCState (List.filter (fun e => negb (tc_expired st e)) (tc_entries st))
                   (tc_now st) (tc_window st),
         List.filter (tc_expired st) (tc_entries st));
  cache_get_logs_fn := fun st s t =>
    sort_by_timestamp
      (List.filter (fun e => (s <=? timestamp e) && (timestamp e <=? t)) (tc_entries st));
  get_all_logs := tc_entries
|}.

(** Modelled from the spec: the same cache whose [prune] fails while
    computing eligibility (the failure case of the spec's prune). *)
Definition failing_prune_temporal_cache : TemporalCache TCState := {|
  add_log := add_log spec_temporal_cache;
  prune_cache := fun _ => inl (PyException "prune failed");
  cache_get_logs_fn := cache_get_logs_fn spec_temporal_cache;
  get_all_logs := get_all_logs spec_temporal_cache
|}.

(** Modelled from the spec: the archive collaborator (SQliteConn, not in
    src/): [save] appends, [query] is the inclusive range. *)
Definition spec_sqlite_conn : SQliteConn (list LogEntry) := {|
  save_logs := fun d l => d ++ l;
  db_get_logs_fn := fun d s t =>
    List.filter (fun e => (s <=? timestamp e) && (timestamp e <=? t)) d
|}.

Definition spec_api : API TCState (list LogEntry) :=
  mkAPI spec_temporal_cache spec_sqlite_conn.

Definition empty_world (now window : Z) : World TCState (list LogEntry) :=
  mkWorld (mkTCState [] now window) [] [] [].

Example add_logs_run :
  serve spec_api
    (add_logs spec_api
       (BodyLogList (mkLogList [mkLogEntry 0 "INFO" "a"; mkLogEntry 10 "INFO" "b"])))
    (empty_world 11 5)
  = (mkWorld (mkTCState [mkLogEntry 10 "INFO" "b"] 11 5) [mkLogEntry 0 "INFO" "a"]
       [SavePrunedLogs (Some [mkLogEntry 0 "INFO" "a"])]
       [EvPrint (PrintEntry (mkLogEntry 0 "INFO" "a"));
        EvCacheAddLog (mkLogEntry 0 "INFO" "a");
        EvPrint (PrintEntry (mkLogEntry 10 "INFO" "b"));
        EvCacheAddLog (mkLogEntry 10 "INFO" "b");
        EvCachePruneCache;
        EvPrint (PrintPruned [mkLogEntry 0 "INFO" "a"]);
        EvSendResponse (JSONAdded 2 201);
        EvDbSaveLogs [mkLogEntry 0 "INFO" "a"]],
     inr (JSONAdded 2 201)).
Proof. vm_compute. reflexivity. Qed.

(** ** [add_logs] with a cache whose [add_log] can raise

    Modelled from the spec: TemporalCache.add may reject on resource
    exhaustion with a capacity error (spec 4.1 and 7).  The code of
    [API.add_logs] and of the methods it calls is the same as above; only
    [self.__cache.add_log(...)] may now raise, and nothing in [add_logs]
    catches it. *)

Module FallibleAdd.

Record TemporalCache (C : Type) := {
  add_log : C -> LogEntry -> PyExc + C;
  prune_cache : C -> PyExc + (C * list LogEntry);
  cache_get_logs_fn : C -> Z -> Z -> list LogEntry;
  get_all_logs : C -> list LogEntry
}.
Arguments add_log {C}.
Arguments prune_cache {C}.
Arguments cache_get_logs_fn {C}.
Arguments get_all_logs {C}.

Record API (C D : Type) := mkAPI {
  __cache : TemporalCache C;
  __db_service : SQliteConn D
}.
Arguments mkAPI {C D}.
Arguments __cache {C D}.
Arguments __db_service {C D}.

(** The adds of a submission, in order, stopping at the first that
    raises. *)
Fixpoint add_all {C : Type} (cache : TemporalCache C) (c : C) (l : list LogEntry)
    : PyExc + C :=
  match l with
  | [] => inr c
  | e :: rest =>
      match add_log cache c e with
      | inl exc => inl exc
      | inr c' => add_all cache c' rest
      end
  end.

Section Api.

Context {C D : Type}.
Variable self : API C D.

Local Notation "'let!' x ':=' m 'in' k" := (bind m (fun x => k))
  (at level 200, x name, m at level 100, k at level 200).

Definition cache_add_log (e : LogEntry) : M C D unit :=
  let! _ := emit (EvCacheAddLog e) in
  let! w := get_world in
  match add_log (__cache self) (w_cache w) e with
  | inl exc => raise exc
  | inr c' => set_cache c'
  end.

Definition cache_prune_cache : M C D (list LogEntry) :=
  let! _ := emit EvCachePruneCache in
  let! w := get_world in
  match prune_cache (__cache self) (w_cache w) with
  | inl exc => raise exc
  | inr (c', pruned) => let! _ := set_cache c' in ret pruned
  end.

Definition db_save_logs (l : list LogEntry) : M C D unit :=
  let! _ := emit (EvDbSaveLogs l) in
  let! w := get_world in
  set_db (save_logs (__db_service self) (w_db w) l).

Definition __prune_logs : M C D (option (list LogEntry)) :=
  try_except
    (let! pruned_logs := cache_prune_cache in
     let! _ := print (PrintPruned pruned_logs) in
     ret (Some pruned_logs))
    (fun e => let! _ := print (PrintPruneError e) in ret None).

Definition __save_pruned_logs (pruned_logs : option (list LogEntry)) : M C D unit :=
  match pruned_logs with
  | None | Some [] => ret tt
  | Some l => db_save_logs l
  end.

Definition add_logs_tail (logs_count : Z) : M C D JSONResponse :=
  let! pruned := __prune_logs in
  let! _ := add_task (SavePrunedLogs pruned) in
  ret (JSONAdded logs_count 201).

Definition add_logs (log_list : Body) : M C D JSONResponse :=
  match log_list with
  | BodyOther => raise (AssertionError "Invalid input type")
  | BodyLogList ll =>
      let! _ := for_each (fun log_entry =>
                  let! _ := print (PrintEntry log_entry) in
                  cache_add_log log_entry) (logs ll) in
      add_logs_tail (Z.of_nat (length (logs ll)))
  | BodyLogEntry e =>
      let! _ := cache_add_log e in
      add_logs_tail 1
  end.

Definition run_task (t : Task) : M C D unit :=
  match t with SavePrunedLogs arg => __save_pruned_logs arg end.

Fixpoint run_tasks (ts : list Task) : M C D unit :=
  match ts with
  | [] => ret tt
  | t :: rest => let! _ := run_task t in run_tasks rest
  end.

Definition serve (endpoint : M C D JSONResponse) : M C D JSONResponse :=
  fun w =>
    let w0 := mkWorld (w_cache w) (w_db w) [] (w_trace w) in
    match endpoint w0 with
    | (w1, inl exc) => (fst (emit (EvServerError exc) w1), inl exc)
    | (w1, inr resp) =>
        let w2 := fst (emit (EvSendResponse resp) w1) in
        (fst (run_tasks (w_background w1) w2), inr resp)
    end.

End Api.

End FallibleAdd.

(** Modelled from the spec: the cache of [spec_temporal_cache] with a
    hard ceiling of [cap] entries; [add] fails with a capacity error once
    it is reached. *)
Definition capacity_temporal_cache (cap : nat) : FallibleAdd.TemporalCache TCState := {|
  FallibleAdd.add_log := fun st e =>
    if (cap <=? length (tc_entries st))%nat
    then inl (PyException "capacity exceeded")
    else inr (mkTCState (tc_entries st ++ [e]) (tc_now st) (tc_window st));
  FallibleAdd.prune_cache := prune_cache spec_temporal_cache;
  FallibleAdd.cache_get_logs_fn := cache_get_logs_fn spec_temporal_cache;
  FallibleAdd.get_all_logs := get_all_logs spec_temporal_cache
|}.

Definition capacity_api (cap : nat) : FallibleAdd.API TCState (list LogEntry) :=
  FallibleAdd.mkAPI (capacity_temporal_cache cap) spec_sqlite_conn.


Definition is_cache_add (ev : event) : bool :=
  match ev with EvCacheAddLog _ => true | _ => false end.

(* ================================================================== *)
(** * Proofs *)

(** ** Lemmas on the two loops of [_merge_logs] *)

Section MergeLoop.

Lemma merge_loop_spec (logs : list LogEntry) :
  forall (seen : gset log_key_t) (acc : list LogEntry),
    (forall k, k ∈ seen <-> k ∈ map log_key acc) ->
    NoDup (map log_key acc) ->
    exists r,
      merge_loop seen acc logs = (fst (merge_loop seen acc logs), acc ++ r) /\
      r `sublist_of` logs /\
      (forall k, k ∈ fst (merge_loop seen acc logs) <-> k ∈ map log_key (acc ++ r)) /\
      NoDup (map log_key (acc ++ r)) /\
      (forall k, k ∈ map log_key (acc ++ r) <->
                 k ∈ map log_key acc \/ k ∈ map log_key logs).
Proof.
  induction logs as [|log rest IH]; intros seen acc Hseen Hnd; simpl.
  - exists []. rewrite app_nil_r. repeat split; auto; set_solver.
  - case_decide as Hin.
    + destruct (IH seen acc Hseen Hnd) as (r & Heq & Hsub & Hs & Hn & Hk).
      exists r. split_and!; auto.
      * by apply sublist_cons.
      * intros k. rewrite Hk. apply Hseen in Hin. simpl. rewrite elem_of_cons.
        split; [intros [?|?]; auto | intros [?|[->|?]]; auto].
    + assert (Hseen' : forall k, k ∈ {[log_key log]} ∪ seen <->
                                 k ∈ map log_key (acc ++ [log])).
      { intros k. rewrite map_app. simpl. rewrite elem_of_app, elem_of_union,
          Hseen. set_solver. }
      assert (Hnd' : NoDup (map log_key (acc ++ [log]))).
      { rewrite map_app. simpl. apply NoDup_app. split_and!; auto.
        - intros x Hx Hx'. apply list_elem_of_singleton in Hx'. subst.
          apply Hin, Hseen, Hx.
        - apply NoDup_singleton. }
      destruct (IH _ _ Hseen' Hnd') as (r & Heq & Hsub & Hs & Hn & Hk).
      exists (log :: r). rewrite <- app_assoc in *. simpl in *.
      split_and!; auto.
      * by apply sublist_skip.
      * intros k. rewrite Hk, !map_app. simpl.
        rewrite ?elem_of_app, ?elem_of_cons, ?list_elem_of_singleton, ?elem_of_nil. tauto.
Qed.

Lemma combine_unique_spec (cache_logs db_logs : list LogEntry) :
  combine_unique cache_logs db_logs `sublist_of` cache_logs ++ db_logs /\
  NoDup (map log_key (combine_unique cache_logs db_logs)) /\
  (forall k, k ∈ map log_key (combine_unique cache_logs db_logs) <->
             k ∈ map log_key cache_logs \/ k ∈ map log_key db_logs).
Proof.
  unfold combine_unique.
  destruct (merge_loop_spec cache_logs ∅ [] ltac:(set_solver) NoDup_nil_2)
    as (r1 & Heq1 & Hsub1 & Hs1 & Hn1 & Hk1).
  rewrite Heq1. simpl in *.
  destruct (merge_loop_spec db_logs _ _ Hs1 Hn1)
    as (r2 & Heq2 & Hsub2 & Hs2 & Hn2 & Hk2).
  rewrite Heq2. simpl. split_and!; auto.
  - by apply sublist_app.
  - intros k. rewrite Hk2, Hk1. set_solver.
Qed.

End MergeLoop.

(** ** Lemmas on the stable sort *)

Section StableSort.

Lemma insert_by_timestamp_perm (x : LogEntry) (l : list LogEntry) :
  Permutation (insert_by_timestamp x l) (x :: l).
Proof.
  induction l as [|y ys IH]; simpl; [reflexivity|].
  destruct (timestamp x <=? timestamp y); [reflexivity|].
  rewrite IH. apply perm_swap.
Qed.

Lemma sort_by_timestamp_perm (l : list LogEntry) :
  Permutation (sort_by_timestamp l) l.
Proof.
  induction l as [|x xs IH]; simpl; [reflexivity|].
  rewrite insert_by_timestamp_perm, IH. reflexivity.
Qed.

Lemma insert_by_timestamp_sorted (x : LogEntry) (l : list LogEntry) :
  Sorted ts_le l -> Sorted ts_le (insert_by_timestamp x l).
Proof.
  induction l as [|y ys IH]; simpl; intros Hs.
  - repeat constructor.
  - destruct (timestamp x <=? timestamp y) eqn:Hxy.
    + apply Z.leb_le in Hxy. constructor; [exact Hs|]. constructor. exact Hxy.
    + apply Z.leb_gt in Hxy. apply Sorted_inv in Hs as [Hys Hhd].
      constructor; [by apply IH|].
      destruct ys as [|z zs]; simpl.
      * constructor. unfold ts_le. lia.
      * destruct (timestamp x <=? timestamp z); constructor; unfold ts_le.
        -- lia.
        -- by inversion Hhd.
Qed.

Lemma sort_by_timestamp_sorted (l : list LogEntry) :
  Sorted ts_le (sort_by_timestamp l).
Proof.
  induction l as [|x xs IH]; simpl; [constructor|].
  by apply insert_by_timestamp_sorted.
Qed.

(** Entries of one timestamp [t] keep their order through the sort. *)
Definition at_timestamp (t : Z) (l : list LogEntry) : list LogEntry :=
  List.filter (fun e => timestamp e =? t) l.

Lemma insert_by_timestamp_stable (t : Z) (x : LogEntry) (l : list LogEntry) :
  at_timestamp t (insert_by_timestamp x l) = at_timestamp t (x :: l).
Proof.
  unfold at_timestamp.
  induction l as [|y ys IH]; simpl; [reflexivity|].
  destruct (timestamp x <=? timestamp y) eqn:Hxy; [reflexivity|].
  apply Z.leb_gt in Hxy. simpl. rewrite IH. simpl.
  destruct (timestamp y =? t) eqn:Hy, (timestamp x =? t) eqn:Hx; auto.
  apply Z.eqb_eq in Hy, Hx. lia.
Qed.

Lemma sort_by_timestamp_stable (t : Z) (l : list LogEntry) :
  at_timestamp t (sort_by_timestamp l) = at_timestamp t l.
Proof.
  induction l as [|x xs IH]; simpl; [reflexivity|].
  rewrite insert_by_timestamp_stable. unfold at_timestamp in *. simpl.
  by rewrite IH.
Qed.

End StableSort.

(** ** Lemmas on the heap version of [_merge_logs] *)

Section MergeHeap.

Lemma merge_loop_heap_spec (logs : list LogEntry) :
  forall (h : heap) (r : loc) (u : gset log_key_t) (acc : list LogEntry),
    h !! r = Some acc ->
    let '(h', u') := merge_loop_heap h r u logs in
    h' !! r = Some (snd (merge_loop u acc logs)) /\
    u' = fst (merge_loop u acc logs) /\
    (forall l, l <> r -> h' !! l = h !! l).
Proof.
  induction logs as [|log rest IH]; intros h r u acc Hr; simpl.
  - auto.
  - case_decide.
    + apply IH; exact Hr.
    + unfold heap_append. rewrite Hr. simpl.
      specialize (IH (<[r:=acc ++ [log]]> h) r ({[log_key log]} ∪ u) (acc ++ [log])
                     (lookup_insert_eq _ _ _)).
      destruct (merge_loop_heap _ _ _ rest) as [h' u'].
      destruct IH as (H1 & H2 & H3). split_and!; auto.
      intros l Hl. rewrite H3 by exact Hl. by apply lookup_insert_ne.
Qed.

Lemma merge_logs_heap_spec (h : heap) (a b : loc) :
  let '(h', r) := _merge_logs_heap h a b in
  h !! r = None /\
  h' !! r = Some (_merge_logs (default [] (h !! a)) (default [] (h !! b))) /\
  (forall l, l <> r -> h' !! l = h !! l).
Proof.
  unfold _merge_logs_heap.
  set (r := fresh (dom h)).
  assert (Hfresh : h !! r = None) by (apply not_elem_of_dom, is_fresh).
  pose proof (merge_loop_heap_spec (default [] (h !! a)) (<[r:=[]]> h) r ∅ []
                (lookup_insert_eq _ _ _)) as H1.
  destruct (merge_loop_heap (<[r:=[]]> h) r ∅ _) as [h1 u1].
  destruct H1 as (H1r & H1u & H1o).
  pose proof (merge_loop_heap_spec (default [] (h !! b)) h1 r u1 _ H1r) as H2.
  destruct (merge_loop_heap h1 r u1 _) as [h2 u2].
  destruct H2 as (H2r & H2u & H2o).
  split_and!; [exact Hfresh| |].
  - rewrite lookup_insert_eq, H2r. simpl. unfold _merge_logs, combine_unique.
    destruct (merge_loop ∅ [] (default [] (h !! a))) as [s1 c1] eqn:E1.
    simpl in *. subst u1. reflexivity.
  - intros l Hl. rewrite lookup_insert_ne by congruence.
    rewrite H2o, H1o by exact Hl. by apply lookup_insert_ne.
Qed.

End MergeHeap.

(** ** Runs of [add_logs] under [serve] *)

Section AddLogsRun.

Context {C D : Type} (self : API C D).

Lemma add_loop_run (L : list LogEntry) :
  forall (c : C) (d : D) (bg : list Task) (t : list event),
    for_each (fun log_entry =>
                bind (print (PrintEntry log_entry))
                     (fun _ => cache_add_log self log_entry)) L (mkWorld c d bg t)
    = (mkWorld (fold_left (add_log (__cache self)) L c) d bg
         (t ++ flat_map (fun e => [EvPrint (PrintEntry e); EvCacheAddLog e]) L),
       inr tt).
Proof.
  induction L as [|e L IH]; intros c d bg t; simpl.
  - by rewrite app_nil_r.
  - unfold bind at 1. simpl. rewrite IH. by rewrite <- !app_assoc.
Qed.

(** What [serve] does once the adds are done and [add_logs_tail] runs. *)
Lemma serve_tail (endpoint : M C D JSONResponse) (n : Z) (w : World C D)
    (c1 : C) (t1 : list event) :
  endpoint (mkWorld (w_cache w) (w_db w) [] (w_trace w))
    = add_logs_tail self n (mkWorld c1 (w_db w) [] t1) ->
  serve self endpoint w =
  match prune_cache (__cache self) c1 with
  | inl exc =>
      (mkWorld c1 (w_db w) [SavePrunedLogs None]
         (t1 ++ [EvCachePruneCache; EvPrint (PrintPruneError exc);
                 EvSendResponse (JSONAdded n 201)]),
       inr (JSONAdded n 201))
  | inr (c', []) =>
      (mkWorld c' (w_db w) [SavePrunedLogs (Some [])]
         (t1 ++ [EvCachePruneCache; EvPrint (PrintPruned []);
                 EvSendResponse (JSONAdded n 201)]),
       inr (JSONAdded n 201))
  | inr (c', l) =>
      (mkWorld c' (save_logs (__db_service self) (w_db w) l) [SavePrunedLogs (Some l)]
         (t1 ++ [EvCachePruneCache; EvPrint (PrintPruned l);
                 EvSendResponse (JSONAdded n 201); EvDbSaveLogs l]),
       inr (JSONAdded n 201))
  end.
Proof.
  intros Hend. unfold serve. rewrite Hend.
  unfold add_logs_tail, __prune_logs, cache_prune_cache, try_except, bind,
    emit, get_world, set_cache, print, add_task, ret, raise. simpl.
  destruct (prune_cache (__cache self) c1) as [exc|[c' [|x l]]]; simpl;
    by rewrite <- !app_assoc.
Qed.

Lemma add_logs_entry_start (e : LogEntry) (w : World C D) :
  add_logs self (BodyLogEntry e) (mkWorld (w_cache w) (w_db w) [] (w_trace w))
  = add_logs_tail self 1
      (mkWorld (add_log (__cache self) (w_cache w) e) (w_db w) []
         (w_trace w ++ [EvCacheAddLog e])).
Proof. reflexivity. Qed.

Lemma add_logs_list_start (ll : LogList) (w : World C D) :
  add_logs self (BodyLogList ll) (mkWorld (w_cache w) (w_db w) [] (w_trace w))
  = add_logs_tail self (Z.of_nat (length (logs ll)))
      (mkWorld (fold_left (add_log (__cache self)) (logs ll) (w_cache w)) (w_db w) []
         (w_trace w ++ flat_map (fun e => [EvPrint (PrintEntry e); EvCacheAddLog e])
                                (logs ll))).
Proof. simpl. unfold bind at 1. by rewrite add_loop_run. Qed.

(** Both declared forms at once: the adds, then the tail. *)
Lemma add_logs_declared (body : Body) (w : World C D) :
  body <> BodyOther ->
  add_logs self body (mkWorld (w_cache w) (w_db w) [] (w_trace w))
  = add_logs_tail self (Z.of_nat (length (submitted_logs body)))
      (mkWorld (fold_left (add_log (__cache self)) (submitted_logs body) (w_cache w))
         (w_db w) []
         (w_trace w ++
            match body with
            | BodyLogEntry e => [EvCacheAddLog e]
            | _ => flat_map (fun e => [EvPrint (PrintEntry e); EvCacheAddLog e])
                            (submitted_logs body)
            end)).
Proof.
  intros Hb. destruct body as [e|ll|]; [|apply add_logs_list_start|congruence].
  apply add_logs_entry_start.
Qed.

Lemma adds_no_db_save (body : Body) :
  List.filter is_db_save
    match body with
    | BodyLogEntry e => [EvCacheAddLog e]
    | _ => flat_map (fun e => [EvPrint (PrintEntry e); EvCacheAddLog e])
                    (submitted_logs body)
    end = [].
Proof.
  destruct body as [e|ll|]; [reflexivity| |reflexivity].
  simpl. induction (logs ll) as [|e l IH]; [reflexivity|]. exact IH.
Qed.

End AddLogsRun.

(** ** Further lemmas on [_merge_logs] *)

Section MergeProps.

Lemma sort_by_timestamp_sorted_id (l : list LogEntry) :
  Sorted ts_le l -> sort_by_timestamp l = l.
Proof.
  induction l as [|x xs IH]; intros Hs; [reflexivity|].
  apply Sorted_inv in Hs as [Hxs Hhd]. simpl. rewrite (IH Hxs).
  destruct xs as [|y ys]; [reflexivity|]. simpl.
  inversion Hhd as [|? ? Hxy]; subst. unfold ts_le in Hxy.
  apply Z.leb_le in Hxy. by rewrite Hxy.
Qed.

(** An input whose keys are new and pairwise distinct is appended whole. *)
Lemma merge_loop_fresh (l : list LogEntry) :
  forall (seen : gset log_key_t) (acc : list LogEntry),
    NoDup (map log_key l) ->
    (forall k, k ∈ map log_key l -> k ∉ seen) ->
    snd (merge_loop seen acc l) = acc ++ l.
Proof.
  induction l as [|x xs IH]; intros seen acc Hnd Hfr; simpl.
  - by rewrite app_nil_r.
  - apply NoDup_cons in Hnd as [Hx Hnd].
    rewrite decide_False by (apply Hfr; left).
    rewrite IH; [by rewrite <- app_assoc|exact Hnd|].
    intros k Hk. rewrite not_elem_of_union, not_elem_of_singleton. split.
    + intros ->. contradiction.
    + apply Hfr. by right.
Qed.

(** An input whose keys were all seen already adds nothing. *)
Lemma merge_loop_seen (l : list LogEntry) :
  forall (seen : gset log_key_t) (acc : list LogEntry),
    (forall k, k ∈ map log_key l -> k ∈ seen) ->
    merge_loop seen acc l = (seen, acc).
Proof.
  induction l as [|x xs IH]; intros seen acc Hin; simpl; [reflexivity|].
  rewrite decide_True by (apply Hin; left).
  apply IH. intros k Hk. apply Hin. by right.
Qed.

Lemma combine_unique_consolidated (l : list LogEntry) :
  NoDup (map log_key l) -> combine_unique l [] = l.
Proof.
  intros Hnd. unfold combine_unique.
  pose proof (merge_loop_fresh l ∅ [] Hnd ltac:(set_solver)) as H.
  destruct (merge_loop ∅ [] l) as [u c]. simpl in *. exact H.
Qed.

(** [_merge_logs l []] gives back a list already sorted and free of
    duplicate triples. *)
Lemma merge_logs_consolidated_id (l : list LogEntry) :
  Sorted ts_le l -> NoDup (map log_key l) -> _merge_logs l [] = l.
Proof.
  intros Hs Hnd. unfold _merge_logs.
  rewrite combine_unique_consolidated by exact Hnd.
  by apply sort_by_timestamp_sorted_id.
Qed.

Lemma merge_logs_nodup_sorted (cache_logs db_logs : list LogEntry) :
  Sorted ts_le (_merge_logs cache_logs db_logs) /\
  NoDup (map log_key (_merge_logs cache_logs db_logs)).
Proof.
  unfold _merge_logs. split; [apply sort_by_timestamp_sorted|].
  destruct (combine_unique_spec cache_logs db_logs) as (_ & Hnd & _).
  eapply NoDup_Permutation_proper; [|exact Hnd].
  apply Permutation_map, sort_by_timestamp_perm.
Qed.

End MergeProps.

(** ** Runs of [FallibleAdd.add_logs] *)

Section FallibleRun.

Context {C D : Type} (self : FallibleAdd.API C D).

Lemma bind_run {A B : Type} (m : M C D A) (k : A -> M C D B) (w : World C D) :
  bind m k w = match m w with
               | (w', inl exc) => (w', inl exc)
               | (w', inr a) => k a w'
               end.
Proof. reflexivity. Qed.

Lemma fallible_add_step (e : LogEntry) (c : C) (d : D) (bg : list Task)
    (t : list event) :
  bind (print (PrintEntry e)) (fun _ => FallibleAdd.cache_add_log self e)
    (mkWorld c d bg t)
  = match FallibleAdd.add_log (FallibleAdd.__cache self) c e with
    | inl exc => (mkWorld c d bg (t ++ [EvPrint (PrintEntry e); EvCacheAddLog e]), inl exc)
    | inr c' => (mkWorld c' d bg (t ++ [EvPrint (PrintEntry e); EvCacheAddLog e]), inr tt)
    end.
Proof.
  unfold FallibleAdd.cache_add_log, bind, print, emit, get_world, set_cache, raise.
  simpl. destruct (FallibleAdd.add_log _ _ _); by rewrite <- app_assoc.
Qed.

Lemma fallible_add_loop_run (L : list LogEntry) :
  forall (c : C) (d : D) (bg : list Task) (t : list event),
    let run := for_each (fun log_entry =>
                 bind (print (PrintEntry log_entry))
                      (fun _ => FallibleAdd.cache_add_log self log_entry)) L
                 (mkWorld c d bg t) in
    (forall c1, FallibleAdd.add_all (FallibleAdd.__cache self) c L = inr c1 ->
       run = (mkWorld c1 d bg
                (t ++ flat_map (fun e => [EvPrint (PrintEntry e); EvCacheAddLog e]) L),
              inr tt)) /\
    (forall exc, FallibleAdd.add_all (FallibleAdd.__cache self) c L = inl exc ->
       exists done e rest c0,
         L = done ++ e :: rest /\
         FallibleAdd.add_all (FallibleAdd.__cache self) c done = inr c0 /\
         FallibleAdd.add_log (FallibleAdd.__cache self) c0 e = inl exc /\
         run = (mkWorld c0 d bg
                  (t ++ flat_map (fun e => [EvPrint (PrintEntry e); EvCacheAddLog e]) done
                     ++ [EvPrint (PrintEntry e); EvCacheAddLog e]),
                inl exc)).
Proof.
  induction L as [|e L IH]; intros c d bg t; cbn zeta.
  - simpl. split.
    + intros c1 [= <-]. by rewrite app_nil_r.
    + intros exc [=].
  - cbn [for_each]. rewrite bind_run, fallible_add_step. simpl FallibleAdd.add_all.
    destruct (FallibleAdd.add_log (FallibleAdd.__cache self) c e) as [exc|c'] eqn:Hadd.
    + split; [intros c1 [=]|].
      intros exc' [= <-]. exists [], e, L, c. simpl.
      split_and!; auto.
    + destruct (IH c' d bg (t ++ [EvPrint (PrintEntry e); EvCacheAddLog e]))
        as [IHok IHerr].
      split.
      * intros c1 Hall. rewrite (IHok c1 Hall). simpl. by rewrite <- !app_assoc.
      * intros exc Hall.
        destruct (IHerr exc Hall) as (done & e0 & rest & c0 & -> & Hd & He & Hrun).
        exists (e :: done), e0, rest, c0. simpl. rewrite Hadd.
        split_and!; auto. rewrite Hrun. by rewrite <- !app_assoc.
Qed.

(** What [serve] does once the adds succeeded and [add_logs_tail] runs. *)
Lemma fallible_serve_tail (endpoint : M C D JSONResponse) (n : Z) (w : World C D)
    (c1 : C) (t1 : list event) :
  endpoint (mkWorld (w_cache w) (w_db w) [] (w_trace w))
    = FallibleAdd.add_logs_tail self n (mkWorld c1 (w_db w) [] t1) ->
  snd (FallibleAdd.serve self endpoint w) = inr (JSONAdded n 201) /\
  exists post, w_trace (fst (FallibleAdd.serve self endpoint w)) = t1 ++ post /\
               forall e', ~ In (EvCacheAddLog e') post.
Proof.
  intros Hend. unfold FallibleAdd.serve. rewrite Hend.
  unfold FallibleAdd.add_logs_tail, FallibleAdd.__prune_logs,
    FallibleAdd.cache_prune_cache, try_except, bind, emit, get_world,
    set_cache, print, add_task, ret, raise. simpl.
  destruct (FallibleAdd.prune_cache (FallibleAdd.__cache self) c1)
    as [exc|[c' [|x l]]]; simpl; (split; [reflexivity|]); eexists;
    (split; [by rewrite <- !app_assoc|]); intros e' Hin; simpl in Hin;
    intuition discriminate.
Qed.

Lemma fallible_serve_raise (endpoint : M C D JSONResponse) (w w1 : World C D)
    (exc : PyExc) :
  endpoint (mkWorld (w_cache w) (w_db w) [] (w_trace w)) = (w1, inl exc) ->
  FallibleAdd.serve self endpoint w
  = (mkWorld (w_cache w1) (w_db w1) (w_background w1)
       (w_trace w1 ++ [EvServerError exc]), inl exc).
Proof. intros Hend. unfold FallibleAdd.serve. by rewrite Hend. Qed.

End FallibleRun.

(* ================================================================== *)
(** * Claims *)

(** C1: the output of [_merge_logs] holds no two entries with the same
    identity triple (timestamp, tag, message); merging [[e1]] against
    [[e2]] with the same triple gives the one-element list [[e1]], the
    entry of the primary (cache) list. *)
Theorem merge_logs_dedup (cache_logs db_logs : list LogEntry) :
  NoDup (map log_key (_merge_logs cache_logs db_logs)) /\
  (forall e1 e2 : LogEntry, log_key e1 = log_key e2 ->
     _merge_logs [e1] [e2] = [e1]).
Proof.
  split.
  - unfold _merge_logs.
    destruct (combine_unique_spec cache_logs db_logs) as (_ & Hnd & _).
    eapply NoDup_Permutation_proper; [|exact Hnd].
    apply Permutation_map, sort_by_timestamp_perm.
  - intros e1 e2 Hk. unfold _merge_logs, combine_unique. simpl.
    rewrite decide_False by set_solver.
    simpl. rewrite decide_True by (rewrite Hk; set_solver).
    reflexivity.
Qed.

Lemma merge_logs_dedup_witness :
  log_key (mkLogEntry 5 "INFO" "x") = log_key (mkLogEntry 5 "INFO" "x") /\
  _merge_logs [mkLogEntry 5 "INFO" "x"] [mkLogEntry 5 "INFO" "x"]
  = [mkLogEntry 5 "INFO" "x"].
Proof.
  split; [reflexivity|].
  apply (proj2 (merge_logs_dedup [] [])). reflexivity.
Defined.

(** C2: the output of [_merge_logs] is non-decreasing by timestamp, and
    the entries of one timestamp appear in the order they have in the
    deduplicated concatenation primary-then-secondary, which is itself a
    sublist (order-preserving) of [cache_logs ++ db_logs]. *)
Theorem merge_logs_sorted_stable (cache_logs db_logs : list LogEntry) :
  Sorted ts_le (_merge_logs cache_logs db_logs) /\
  (forall t, at_timestamp t (_merge_logs cache_logs db_logs)
             = at_timestamp t (combine_unique cache_logs db_logs)) /\
  combine_unique cache_logs db_logs `sublist_of` cache_logs ++ db_logs.
Proof.
  unfold _merge_logs. split_and!.
  - apply sort_by_timestamp_sorted.
  - intros t. apply sort_by_timestamp_stable.
  - apply combine_unique_spec.
Qed.

(** C6: [_merge_logs] on a heap of Python lists [cache_logs ↦ A] and
    [db_logs ↦ B]: it writes only a fresh list, leaves every other list
    (both inputs among them) as it was, and stores the merge of [A] and [B]
    there; a second call on the same references stores an equal list; two
    empty lists merge to the empty list. *)
Theorem merge_logs_pure (h : heap) (cache_logs db_logs : loc)
    (A B : list LogEntry)
    (HA : h !! cache_logs = Some A) (HB : h !! db_logs = Some B) :
  let '(h', r) := _merge_logs_heap h cache_logs db_logs in
  h !! r = None /\
  h' !! cache_logs = Some A /\ h' !! db_logs = Some B /\
  (forall l, l <> r -> h' !! l = h !! l) /\
  h' !! r = Some (_merge_logs A B) /\
  (let '(h'', r') := _merge_logs_heap h' cache_logs db_logs in
   h'' !! r' = h' !! r) /\
  _merge_logs [] [] = [].
Proof.
  pose proof (merge_logs_heap_spec h cache_logs db_logs) as H.
  destruct (_merge_logs_heap h cache_logs db_logs) as [h' r].
  destruct H as (Hfresh & Hr & Ho).
  rewrite HA, HB in Hr. simpl in Hr.
  assert (Ha : h' !! cache_logs = Some A).
  { rewrite Ho; [exact HA|]. intros ->. congruence. }
  assert (Hb : h' !! db_logs = Some B).
  { rewrite Ho; [exact HB|]. intros ->. congruence. }
  split_and!; auto.
  pose proof (merge_logs_heap_spec h' cache_logs db_logs) as H'.
  destruct (_merge_logs_heap h' cache_logs db_logs) as [h'' r'].
  destruct H' as (_ & Hr' & _).
  rewrite Hr', Ha, Hb, Hr. reflexivity.
Qed.

Lemma merge_logs_pure_witness :
  let h : heap := <[1%positive := [mkLogEntry 2 "INFO" "b"]]>
                    (<[2%positive := [mkLogEntry 1 "WARN" "a"]]> ∅) in
  h !! 1%positive = Some [mkLogEntry 2 "INFO" "b"] /\
  h !! 2%positive = Some [mkLogEntry 1 "WARN" "a"] /\
  (let '(h', r) := _merge_logs_heap h 1%positive 2%positive in
   h !! r = None /\
   h' !! 1%positive = Some [mkLogEntry 2 "INFO" "b"] /\
   h' !! 2%positive = Some [mkLogEntry 1 "WARN" "a"] /\
   (forall l, l <> r -> h' !! l = h !! l) /\
   h' !! r = Some (_merge_logs [mkLogEntry 2 "INFO" "b"] [mkLogEntry 1 "WARN" "a"]) /\
   (let '(h'', r') := _merge_logs_heap h' 1%positive 2%positive in
    h'' !! r' = h' !! r) /\
   _merge_logs [] [] = []).
Proof.
  intros h.
  assert (HA : h !! 1%positive = Some [mkLogEntry 2 "INFO" "b"]) by reflexivity.
  assert (HB : h !! 2%positive = Some [mkLogEntry 1 "WARN" "a"]) by reflexivity.
  split; [exact HA|]. split; [exact HB|].
  exact (merge_logs_pure h 1%positive 2%positive _ _ HA HB).
Defined.

(** C9: [_merge_logs] neither loses nor invents log events: the identity
    triples of the output are those of the two inputs together, and every
    output entry is an entry of one of the inputs. *)
Theorem merge_logs_keys (cache_logs db_logs : list LogEntry) :
  (forall k, k ∈ map log_key (_merge_logs cache_logs db_logs) <->
             k ∈ map log_key cache_logs \/ k ∈ map log_key db_logs) /\
  (forall x, x ∈ _merge_logs cache_logs db_logs -> x ∈ cache_logs \/ x ∈ db_logs).
Proof.
  unfold _merge_logs.
  destruct (combine_unique_spec cache_logs db_logs) as (Hsub & _ & Hk).
  pose proof (sort_by_timestamp_perm (combine_unique cache_logs db_logs)) as Hp.
  split.
  - intros k. rewrite <- Hk. apply elem_of_Permutation_proper.
    by apply Permutation_map.
  - intros x Hx. apply elem_of_app.
    eapply elem_of_sublist; [|exact Hsub].
    by rewrite <- Hp.
Qed.

(** C3 (counterexample): [get_logs] with [start_time > end_time] calls
    [TemporalCache.get_logs] and answers 200; it is not refused. *)
Lemma get_logs_inverted_range_reaches_cache :
  let '(w', r) := serve spec_api (get_logs spec_api 1 0) (empty_world 0 5) in
  In (EvCacheGetLogs 1 0) (w_trace w') /\ r = inr (JSONLogs [] 200).
Proof. vm_compute. split; [left; reflexivity | reflexivity]. Qed.

(** C3 (as amended): [get_logs] has no range check: for every
    [start_time] and [end_time], [start_time > end_time] included, it calls
    [TemporalCache.get_logs], then the database's [get_logs], and answers
    200 with the merge of the two results. *)
Theorem get_logs_no_range_check {C D : Type} (self : API C D) (w : World C D)
    (start_time end_time : Z) :
  let overall_logs :=
    _merge_logs (cache_get_logs_fn (__cache self) (w_cache w) start_time end_time)
                (db_get_logs_fn (__db_service self) (w_db w) start_time end_time) in
  serve self (get_logs self start_time end_time) w
  = (mkWorld (w_cache w) (w_db w) []
       (w_trace w ++ [EvCacheGetLogs start_time end_time;
                      EvDbGetLogs start_time end_time;
                      EvSendResponse (JSONLogs overall_logs 200)]),
     inr (JSONLogs overall_logs 200)).
Proof.
  cbn. unfold serve, get_logs, cache_get_logs, db_get_logs, bind, emit,
    get_world, ret. simpl. by rewrite <- !app_assoc.
Qed.

(** C4: [add_logs] calls [TemporalCache.prune_cache] on the caller's path:
    the prune happens before the response is sent, for every submission of
    a declared type; only the database save runs after the response. *)
Theorem add_logs_prunes_before_response {C D : Type} (self : API C D)
    (w : World C D) (body : Body) (Hb : body <> BodyOther) :
  exists pre post,
    w_trace (fst (serve self (add_logs self body) w))
    = w_trace w ++ pre
        ++ [EvSendResponse (JSONAdded (Z.of_nat (length (submitted_logs body))) 201)]
        ++ post /\
    In EvCachePruneCache pre /\ ~ In EvCachePruneCache post.
Proof.
  rewrite (serve_tail self _ _ w _ _ (add_logs_declared self body w Hb)).
  set (adds := match body with
               | BodyLogEntry e => [EvCacheAddLog e]
               | _ => flat_map (fun e => [EvPrint (PrintEntry e); EvCacheAddLog e])
                               (submitted_logs body)
               end).
  destruct (prune_cache _ _) as [exc|[c' [|x l]]]; simpl.
  - exists (adds ++ [EvCachePruneCache; EvPrint (PrintPruneError exc)]), [].
    rewrite <- !app_assoc. simpl. split_and!; [reflexivity| |auto].
    apply in_or_app. right. left. reflexivity.
  - exists (adds ++ [EvCachePruneCache; EvPrint (PrintPruned [])]), [].
    rewrite <- !app_assoc. simpl. split_and!; [reflexivity| |auto].
    apply in_or_app. right. left. reflexivity.
  - exists (adds ++ [EvCachePruneCache; EvPrint (PrintPruned (x :: l))]),
      [EvDbSaveLogs (x :: l)].
    rewrite <- !app_assoc. simpl. split_and!; [reflexivity| |].
    + apply in_or_app. right. left. reflexivity.
    + intros [H|[]]. discriminate.
Qed.

Lemma add_logs_prunes_before_response_witness :
  BodyLogEntry (mkLogEntry 0 "INFO" "a") <> BodyOther /\
  exists pre post,
    w_trace (fst (serve spec_api (add_logs spec_api (BodyLogEntry (mkLogEntry 0 "INFO" "a")))
                    (empty_world 11 5)))
    = w_trace (empty_world 11 5) ++ pre
        ++ [EvSendResponse (JSONAdded (Z.of_nat (length (submitted_logs
              (BodyLogEntry (mkLogEntry 0 "INFO" "a"))))) 201)]
        ++ post /\
    In EvCachePruneCache pre /\ ~ In EvCachePruneCache post.
Proof.
  split; [discriminate|].
  apply add_logs_prunes_before_response. discriminate.
Defined.

(** C5 (counterexample): with a cache that holds one entry, a [LogList]
    of three entries gets two [add_log] calls, the second raising the
    capacity error, and no acknowledgment. *)
Lemma add_logs_batch_capacity_error :
  let '(w', r) :=
    FallibleAdd.serve (capacity_api 1)
      (FallibleAdd.add_logs (capacity_api 1)
         (BodyLogList (mkLogList [mkLogEntry 1 "INFO" "a"; mkLogEntry 2 "INFO" "b";
                                  mkLogEntry 3 "INFO" "c"])))
      (empty_world 3 5) in
  r = inl (PyException "capacity exceeded") /\
  length (List.filter is_cache_add (w_trace w')) = 2%nat.
Proof. vm_compute. split; reflexivity. Qed.

(** C5 (as amended): [add_logs] calls [add_log] on the submitted entries
    one at a time in submission order (once for a single [LogEntry], in
    list order for a [LogList]).  If every call succeeds, the caller gets
    a 201 acknowledgment with the number of entries submitted and no
    further [add_log] follows.  If one raises, the calls stop there: the
    exception reaches the caller, with no prune and no acknowledgment, and
    the entries added before it stay in the cache. *)
Theorem add_logs_adds_until_failure {C D : Type} (self : FallibleAdd.API C D)
    (w : World C D) :
  (forall e : LogEntry,
     let '(w', r) := FallibleAdd.serve self (FallibleAdd.add_logs self (BodyLogEntry e)) w in
     match FallibleAdd.add_log (FallibleAdd.__cache self) (w_cache w) e with
     | inr _ =>
         r = inr (JSONAdded 1 201) /\
         exists post, w_trace w' = w_trace w ++ [EvCacheAddLog e] ++ post /\
                      forall e', ~ In (EvCacheAddLog e') post
     | inl exc =>
         r = inl exc /\ w_cache w' = w_cache w /\
         w_trace w' = w_trace w ++ [EvCacheAddLog e; EvServerError exc]
     end) /\
  (forall ll : LogList,
     let '(w', r) := FallibleAdd.serve self (FallibleAdd.add_logs self (BodyLogList ll)) w in
     match FallibleAdd.add_all (FallibleAdd.__cache self) (w_cache w) (logs ll) with
     | inr _ =>
         r = inr (JSONAdded (Z.of_nat (length (logs ll))) 201) /\
         exists post,
           w_trace w' = w_trace w
                          ++ flat_map (fun e => [EvPrint (PrintEntry e); EvCacheAddLog e])
                                      (logs ll)
                          ++ post /\
           forall e', ~ In (EvCacheAddLog e') post
     | inl exc =>
         r = inl exc /\
         exists done e rest c0,
           logs ll = done ++ e :: rest /\
           FallibleAdd.add_all (FallibleAdd.__cache self) (w_cache w) done = inr c0 /\
           FallibleAdd.add_log (FallibleAdd.__cache self) c0 e = inl exc /\
           w_cache w' = c0 /\
           w_trace w' = w_trace w
                          ++ flat_map (fun e => [EvPrint (PrintEntry e); EvCacheAddLog e]) done
                          ++ [EvPrint (PrintEntry e); EvCacheAddLog e; EvServerError exc]
     end).
Proof.
  split.
  - intros e.
    destruct (FallibleAdd.add_log (FallibleAdd.__cache self) (w_cache w) e)
      as [exc|c1] eqn:Hadd.
    + rewrite (fallible_serve_raise self _ w
                 (mkWorld (w_cache w) (w_db w) [] (w_trace w ++ [EvCacheAddLog e])) exc).
      * simpl. split_and!; [reflexivity|reflexivity|by rewrite <- app_assoc].
      * unfold FallibleAdd.add_logs, FallibleAdd.cache_add_log, bind, emit,
          get_world, raise. simpl. by rewrite Hadd.
    + assert (E : FallibleAdd.add_logs self (BodyLogEntry e)
                    (mkWorld (w_cache w) (w_db w) [] (w_trace w))
                  = FallibleAdd.add_logs_tail self 1
                      (mkWorld c1 (w_db w) [] (w_trace w ++ [EvCacheAddLog e]))).
      { unfold FallibleAdd.add_logs, FallibleAdd.cache_add_log, bind, emit,
          get_world, set_cache. simpl. by rewrite Hadd. }
      destruct (fallible_serve_tail self _ _ w _ _ E) as [Hr (post & Ht & Hno)].
      destruct (FallibleAdd.serve self _ w) as [w' r]. simpl in *.
      split; [exact Hr|]. exists post. split; [|exact Hno].
      rewrite Ht. by rewrite <- app_assoc.
  - intros ll.
    destruct (fallible_add_loop_run self (logs ll) (w_cache w) (w_db w) [] (w_trace w))
      as [Hok Herr].
    assert (E : FallibleAdd.add_logs self (BodyLogList ll)
                  (mkWorld (w_cache w) (w_db w) [] (w_trace w))
                = bind (for_each (fun log_entry =>
                          bind (print (PrintEntry log_entry))
                               (fun _ => FallibleAdd.cache_add_log self log_entry))
                          (logs ll))
                       (fun _ => FallibleAdd.add_logs_tail self
                                   (Z.of_nat (length (logs ll))))
                       (mkWorld (w_cache w) (w_db w) [] (w_trace w))) by reflexivity.
    rewrite bind_run in E.
    destruct (FallibleAdd.add_all (FallibleAdd.__cache self) (w_cache w) (logs ll))
      as [exc|c1] eqn:Hall.
    + destruct (Herr exc eq_refl) as (done & e & rest & c0 & Hl & Hd & He & Hrun).
      rewrite Hrun in E.
      rewrite (fallible_serve_raise self _ w _ exc E). simpl.
      split; [reflexivity|]. exists done, e, rest, c0.
      split_and!; auto. by rewrite <- !app_assoc.
    + rewrite (Hok c1 eq_refl) in E.
      destruct (fallible_serve_tail self _ _ w _ _ E) as [Hr (post & Ht & Hno)].
      destruct (FallibleAdd.serve self _ w) as [w' r]. simpl in *.
      split; [exact Hr|]. exists post. split; [|exact Hno].
      rewrite Ht. by rewrite <- app_assoc.
Qed.

(** C7: an exception raised by [TemporalCache.prune_cache] after the adds
    is caught in [__prune_logs], printed as ["Error during pruning: ..."],
    and never reaches the caller: the caller gets the 201 acknowledgment,
    the added entries stay in the cache and no save is scheduled. *)
Theorem add_logs_prune_error_contained {C D : Type} (self : API C D)
    (w : World C D) (body : Body) (exc : PyExc)
    (Hb : body <> BodyOther)
    (Hprune : prune_cache (__cache self)
                (fold_left (add_log (__cache self)) (submitted_logs body) (w_cache w))
              = inl exc) :
  let '(w', r) := serve self (add_logs self body) w in
  r = inr (JSONAdded (Z.of_nat (length (submitted_logs body))) 201) /\
  w_cache w' = fold_left (add_log (__cache self)) (submitted_logs body) (w_cache w) /\
  w_db w' = w_db w /\
  exists adds,
    w_trace w' = w_trace w ++ adds ++
                 [EvCachePruneCache; EvPrint (PrintPruneError exc);
                  EvSendResponse (JSONAdded (Z.of_nat (length (submitted_logs body))) 201)].
Proof.
  rewrite (serve_tail self _ _ w _ _ (add_logs_declared self body w Hb)), Hprune.
  split_and!; try reflexivity.
  eexists. rewrite <- app_assoc. reflexivity.
Qed.

Lemma add_logs_prune_error_contained_witness :
  let self := mkAPI failing_prune_temporal_cache spec_sqlite_conn in
  let body := BodyLogEntry (mkLogEntry 0 "INFO" "a") in
  let w := empty_world 11 5 in
  body <> BodyOther /\
  prune_cache (__cache self)
    (fold_left (add_log (__cache self)) (submitted_logs body) (w_cache w))
  = inl (PyException "prune failed") /\
  (let '(w', r) := serve self (add_logs self body) w in
   r = inr (JSONAdded (Z.of_nat (length (submitted_logs body))) 201) /\
   w_cache w' = fold_left (add_log (__cache self)) (submitted_logs body) (w_cache w) /\
   w_db w' = w_db w /\
   exists adds,
     w_trace w' = w_trace w ++ adds ++
                  [EvCachePruneCache; EvPrint (PrintPruneError (PyException "prune failed"));
                   EvSendResponse (JSONAdded (Z.of_nat (length (submitted_logs body))) 201)]).
Proof.
  intros self body w.
  assert (Hb : body <> BodyOther) by discriminate.
  assert (Hp : prune_cache (__cache self)
                 (fold_left (add_log (__cache self)) (submitted_logs body) (w_cache w))
               = inl (PyException "prune failed")) by reflexivity.
  split; [exact Hb|]. split; [exact Hp|].
  exact (add_logs_prune_error_contained self w body _ Hb Hp).
Defined.

(** C8: the database save runs if and only if the prune returned a
    non-empty list, and then once, with exactly the pruned entries; an
    empty prune result or a failed prune (whose value is [None]) saves
    nothing. *)
Theorem add_logs_save_iff_pruned {C D : Type} (self : API C D)
    (w : World C D) (body : Body) (Hb : body <> BodyOther) :
  let c1 := fold_left (add_log (__cache self)) (submitted_logs body) (w_cache w) in
  let '(w', _) := serve self (add_logs self body) w in
  List.filter is_db_save (w_trace w')
  = List.filter is_db_save (w_trace w) ++
    match prune_cache (__cache self) c1 with
    | inr (_, (_ :: _) as pruned) => [EvDbSaveLogs pruned]
    | _ => []
    end /\
  w_db w' = match prune_cache (__cache self) c1 with
            | inr (_, (_ :: _) as pruned) => save_logs (__db_service self) (w_db w) pruned
            | _ => w_db w
            end.
Proof.
  cbv zeta.
  rewrite (serve_tail self _ _ w _ _ (add_logs_declared self body w Hb)).
  pose proof (adds_no_db_save body) as Hadds.
  destruct (prune_cache _ _) as [exc|[c' [|x l]]]; simpl;
    (split; [|reflexivity]); rewrite !List.filter_app, Hadds; simpl; by rewrite ?app_nil_r.
Qed.

Lemma add_logs_save_iff_pruned_witness :
  BodyLogEntry (mkLogEntry 10 "INFO" "b") <> BodyOther /\
  (let w := mkWorld (mkTCState [mkLogEntry 0 "INFO" "a"] 11 5) [] [] [] in
   let body := BodyLogEntry (mkLogEntry 10 "INFO" "b") in
   let c1 := fold_left (add_log (__cache spec_api)) (submitted_logs body) (w_cache w) in
   let '(w', _) := serve spec_api (add_logs spec_api body) w in
   List.filter is_db_save (w_trace w')
   = List.filter is_db_save (w_trace w) ++
     match prune_cache (__cache spec_api) c1 with
     | inr (_, (_ :: _) as pruned) => [EvDbSaveLogs pruned]
     | _ => []
     end /\
   w_db w' = match prune_cache (__cache spec_api) c1 with
             | inr (_, (_ :: _) as pruned) => save_logs (__db_service spec_api) (w_db w) pruned
             | _ => w_db w
             end).
Proof.
  split; [discriminate|].
  apply add_logs_save_iff_pruned. discriminate.
Defined.

(** C10 (counterexample): with a cache at its capacity, [add_logs] on a
    single [LogEntry] does not return 201; the capacity error of
    [add_log] propagates. *)
Lemma add_logs_entry_capacity_error :
  snd (FallibleAdd.serve (capacity_api 0)
         (FallibleAdd.add_logs (capacity_api 0) (BodyLogEntry (mkLogEntry 1 "INFO" "a")))
         (empty_world 1 5))
  = inl (PyException "capacity exceeded").
Proof. vm_compute. reflexivity. Qed.

(** C10 (as amended): for a body of a declared type, a [LogEntry] or a
    [LogList] of any content, the [assert] holds and the caller gets a 201
    response with the count exactly when every [add_log] call succeeds,
    whatever the prune does; otherwise the exception of the failing
    [add_log] reaches the caller.  [add_logs] itself refuses no entry. *)
Theorem add_logs_201_iff_adds_succeed {C D : Type} (self : FallibleAdd.API C D)
    (w : World C D) :
  (forall e : LogEntry,
     snd (FallibleAdd.serve self (FallibleAdd.add_logs self (BodyLogEntry e)) w)
     = match FallibleAdd.add_log (FallibleAdd.__cache self) (w_cache w) e with
       | inl exc => inl exc
       | inr _ => inr (JSONAdded 1 201)
       end) /\
  (forall ll : LogList,
     snd (FallibleAdd.serve self (FallibleAdd.add_logs self (BodyLogList ll)) w)
     = match FallibleAdd.add_all (FallibleAdd.__cache self) (w_cache w) (logs ll) with
       | inl exc => inl exc
       | inr _ => inr (JSONAdded (Z.of_nat (length (logs ll))) 201)
       end).
Proof.
  split.
  - intros e.
    destruct (FallibleAdd.add_log (FallibleAdd.__cache self) (w_cache w) e)
      as [exc|c1] eqn:Hadd.
    + rewrite (fallible_serve_raise self _ w
                 (mkWorld (w_cache w) (w_db w) [] (w_trace w ++ [EvCacheAddLog e])) exc);
        [reflexivity|].
      unfold FallibleAdd.add_logs, FallibleAdd.cache_add_log, bind, emit,
        get_world, raise. simpl. by rewrite Hadd.
    + apply (fallible_serve_tail self _ _ w c1 (w_trace w ++ [EvCacheAddLog e])).
      unfold FallibleAdd.add_logs, FallibleAdd.cache_add_log, bind, emit,
        get_world, set_cache. simpl. by rewrite Hadd.
  - intros ll.
    destruct (fallible_add_loop_run self (logs ll) (w_cache w) (w_db w) [] (w_trace w))
      as [Hok Herr].
    assert (E : FallibleAdd.add_logs self (BodyLogList ll)
                  (mkWorld (w_cache w) (w_db w) [] (w_trace w))
                = bind (for_each (fun log_entry =>
                          bind (print (PrintEntry log_entry))
                               (fun _ => FallibleAdd.cache_add_log self log_entry))
                          (logs ll))
                       (fun _ => FallibleAdd.add_logs_tail self
                                   (Z.of_nat (length (logs ll))))
                       (mkWorld (w_cache w) (w_db w) [] (w_trace w))) by reflexivity.
    rewrite bind_run in E.
    destruct (FallibleAdd.add_all (FallibleAdd.__cache self) (w_cache w) (logs ll))
      as [exc|c1] eqn:Hall.
    + destruct (Herr exc eq_refl) as (done & e & rest & c0 & _ & _ & _ & Hrun).
      rewrite Hrun in E.
      by rewrite (fallible_serve_raise self _ w _ exc E).
    + rewrite (Hok c1 eq_refl) in E.
      apply (fallible_serve_tail self _ _ w _ _ E).
Qed.

(* ================================================================== *)
(** * Further properties of the code *)

(** X1: [_merge_logs] gives back unchanged a primary list that is already
    sorted by timestamp and free of duplicate triples when the secondary
    list is empty. *)
Theorem merge_logs_sorted_unique_id (cache_logs : list LogEntry)
    (Hs : Sorted ts_le cache_logs) (Hnd : NoDup (map log_key cache_logs)) :
  _merge_logs cache_logs [] = cache_logs.
Proof. by apply merge_logs_consolidated_id. Qed.

Lemma merge_logs_sorted_unique_id_witness :
  Sorted ts_le [mkLogEntry 1 "WARN" "a"; mkLogEntry 1 "INFO" "a"; mkLogEntry 2 "INFO" "b"] /\
  NoDup (map log_key [mkLogEntry 1 "WARN" "a"; mkLogEntry 1 "INFO" "a"; mkLogEntry 2 "INFO" "b"]) /\
  _merge_logs [mkLogEntry 1 "WARN" "a"; mkLogEntry 1 "INFO" "a"; mkLogEntry 2 "INFO" "b"] []
  = [mkLogEntry 1 "WARN" "a"; mkLogEntry 1 "INFO" "a"; mkLogEntry 2 "INFO" "b"].
Proof.
  assert (Hs : Sorted ts_le [mkLogEntry 1 "WARN" "a"; mkLogEntry 1 "INFO" "a";
                             mkLogEntry 2 "INFO" "b"]).
  { repeat constructor; unfold ts_le; simpl; lia. }
  assert (Hnd : NoDup (map log_key [mkLogEntry 1 "WARN" "a"; mkLogEntry 1 "INFO" "a";
                                    mkLogEntry 2 "INFO" "b"])).
  { apply (bool_decide_unpack _). vm_compute. exact I. }
  split; [exact Hs|]. split; [exact Hnd|].
  exact (merge_logs_sorted_unique_id _ Hs Hnd).
Defined.

(** X2: merging the result of [_merge_logs] again (with an empty secondary
    list) changes nothing: the consolidation is idempotent. *)
Theorem merge_logs_idempotent (cache_logs db_logs : list LogEntry) :
  _merge_logs (_merge_logs cache_logs db_logs) [] = _merge_logs cache_logs db_logs.
Proof.
  destruct (merge_logs_nodup_sorted cache_logs db_logs) as [Hs Hnd].
  by apply merge_logs_consolidated_id.
Qed.

(** X3: with an empty primary (cache) list, [_merge_logs] gives what it
    gives with the secondary (database) list as primary and an empty
    secondary. *)
Theorem merge_logs_empty_primary (db_logs : list LogEntry) :
  _merge_logs [] db_logs = _merge_logs db_logs [].
Proof.
  unfold _merge_logs, combine_unique. simpl.
  by destruct (merge_loop ∅ [] db_logs).
Qed.

(** X4: database entries whose triples all occur among the cache entries
    add nothing to the result of [_merge_logs]. *)
Theorem merge_logs_covered_secondary (cache_logs db_logs : list LogEntry)
    (Hcov : forall k, k ∈ map log_key db_logs -> k ∈ map log_key cache_logs) :
  _merge_logs cache_logs db_logs = _merge_logs cache_logs [].
Proof.
  unfold _merge_logs, combine_unique.
  destruct (merge_loop_spec cache_logs ∅ [] ltac:(set_solver) NoDup_nil_2)
    as (r1 & Heq1 & _ & Hs1 & _ & Hk1).
  rewrite Heq1. simpl.
  rewrite merge_loop_seen; [reflexivity|].
  intros k Hk. apply Hs1, Hk1. right. by apply Hcov.
Qed.

Lemma merge_logs_covered_secondary_witness :
  (forall k, k ∈ map log_key [mkLogEntry 1 "INFO" "x"] ->
             k ∈ map log_key [mkLogEntry 2 "WARN" "y"; mkLogEntry 1 "INFO" "x"]) /\
  _merge_logs [mkLogEntry 2 "WARN" "y"; mkLogEntry 1 "INFO" "x"] [mkLogEntry 1 "INFO" "x"]
  = _merge_logs [mkLogEntry 2 "WARN" "y"; mkLogEntry 1 "INFO" "x"] [].
Proof.
  assert (Hcov : forall k, k ∈ map log_key [mkLogEntry 1 "INFO" "x"] ->
             k ∈ map log_key [mkLogEntry 2 "WARN" "y"; mkLogEntry 1 "INFO" "x"]).
  { intros k Hk. simpl in *. set_solver. }
  split; [exact Hcov|].
  exact (merge_logs_covered_secondary _ _ Hcov).
Defined.

(** X5: [_merge_logs] returns one entry per distinct triple of its two
    inputs together. *)
Theorem merge_logs_length (cache_logs db_logs : list LogEntry) :
  length (_merge_logs cache_logs db_logs)
  = length (remove_dups (map log_key (cache_logs ++ db_logs))).
Proof.
  rewrite <- (length_map log_key (_merge_logs cache_logs db_logs)).
  apply Permutation_length, NoDup_Permutation.
  - apply merge_logs_nodup_sorted.
  - apply NoDup_remove_dups.
  - intros k. rewrite elem_of_remove_dups, map_app, elem_of_app.
    unfold _merge_logs.
    destruct (combine_unique_spec cache_logs db_logs) as (_ & _ & Hk).
    rewrite <- Hk. apply elem_of_Permutation_proper.
    apply Permutation_map, sort_by_timestamp_perm.
Qed.

(** X6: [get_logs] is read-only: it leaves the cache and the database as
    they were and schedules no background task, so the same query asked
    again right after gets the same response. *)
Theorem get_logs_read_only {C D : Type} (self : API C D) (w : World C D)
    (start_time end_time : Z) :
  let '(w1, r1) := serve self (get_logs self start_time end_time) w in
  w_cache w1 = w_cache w /\ w_db w1 = w_db w /\ w_background w1 = [] /\
  snd (serve self (get_logs self start_time end_time) w1) = r1.
Proof.
  unfold serve, get_logs, cache_get_logs, db_get_logs, bind, emit,
    get_world, ret. simpl. split_and!; reflexivity.
Qed.

(** X7: whatever the cache and the database return, the response of
    [get_logs] is a 200 whose entries are sorted by timestamp, carry no
    duplicate triple, and carry exactly the triples of the two results. *)
Theorem get_logs_response_consolidated {C D : Type} (self : API C D)
    (w : World C D) (start_time end_time : Z) :
  let cache_logs := cache_get_logs_fn (__cache self) (w_cache w) start_time end_time in
  let db_logs := db_get_logs_fn (__db_service self) (w_db w) start_time end_time in
  exists overall_logs,
    snd (serve self (get_logs self start_time end_time) w)
    = inr (JSONLogs overall_logs 200) /\
    Sorted ts_le overall_logs /\
    NoDup (map log_key overall_logs) /\
    (forall k, k ∈ map log_key overall_logs <->
               k ∈ map log_key cache_logs \/ k ∈ map log_key db_logs).
Proof.
  cbv zeta. eexists. split.
  - unfold serve, get_logs, cache_get_logs, db_get_logs, bind, emit,
      get_world, ret. simpl. reflexivity.
  - set (A := cache_get_logs_fn _ _ _ _). set (B := db_get_logs_fn _ _ _ _).
    destruct (merge_logs_nodup_sorted A B) as [Hs Hnd].
    split_and!; [exact Hs|exact Hnd|].
    intros k. unfold _merge_logs.
    destruct (combine_unique_spec A B) as (_ & _ & Hk).
    rewrite <- Hk. apply elem_of_Permutation_proper.
    apply Permutation_map, sort_by_timestamp_perm.
Qed.

(** X9: a single [LogEntry] and a [LogList] holding just that entry have
    the same effect: same cache, same database, same response, and the
    same events except the [print(log_entry)] of the list loop. *)
Theorem add_logs_entry_as_list {C D : Type} (self : API C D) (w : World C D)
    (e : LogEntry) :
  let '(w1, r1) := serve self (add_logs self (BodyLogEntry e)) w in
  let '(w2, r2) := serve self (add_logs self (BodyLogList (mkLogList [e]))) w in
  r1 = r2 /\ w_cache w1 = w_cache w2 /\ w_db w1 = w_db w2 /\
  exists post,
    w_trace w1 = w_trace w ++ [EvCacheAddLog e] ++ post /\
    w_trace w2 = w_trace w ++ [EvPrint (PrintEntry e); EvCacheAddLog e] ++ post.
Proof.
  rewrite (serve_tail self _ _ w _ _ (add_logs_entry_start self e w)).
  rewrite (serve_tail self _ _ w _ _ (add_logs_list_start self (mkLogList [e]) w)).
  simpl.
  destruct (prune_cache _ _) as [exc|[c' [|x l]]];
    split_and!; try reflexivity; eexists; split; by rewrite <- !app_assoc.
Qed.

(** X10: an empty [LogList] adds nothing, is acknowledged with count 0
    and status 201, and still runs the prune on the cache as it was. *)
Theorem add_logs_empty_batch {C D : Type} (self : API C D) (w : World C D) :
  let '(w', r) := serve self (add_logs self (BodyLogList (mkLogList []))) w in
  r = inr (JSONAdded 0 201) /\
  w_cache w' = match prune_cache (__cache self) (w_cache w) with
               | inl _ => w_cache w
               | inr (c', _) => c'
               end /\
  exists post, w_trace w' = w_trace w ++ EvCachePruneCache :: post.
Proof.
  rewrite (serve_tail self _ _ w _ _ (add_logs_list_start self (mkLogList []) w)).
  simpl.
  destruct (prune_cache _ _) as [exc|[c' [|x l]]];
    split_and!; try reflexivity; eexists; by rewrite app_nil_r.
Qed.
